(** * Homomorphic encryption notebook: ElGamal and RSA over Python integers

    Shallow embedding of [cryptography/homomorphic-encryption.ipynb].

    Python's [int] is an unbounded integer, modelled by [Z].  On a non-zero
    divisor Python's [%] and [//] are floor remainder and floor quotient, the
    sign of the remainder following the divisor: these are [Z.modulo] and
    [Z.div].  [math.gcd] returns the non-negative greatest common divisor of
    the absolute values, which is [Z.gcd].

    What Python does outside the integers is kept visible in the result type:
    a division by zero raises, a negative exponent leaves [int], an empty
    [randint] range raises.  The interpreter's recursion limit is not
    modelled: [egcd] recurses as deep as Euclid's algorithm needs. *)

From Stdlib Require Import ZArith Znumtheory Zpow_facts Lia List Bool String.
From Stdlib Require Import Zmod.ZmodInv.
Import ListNotations.

#[local] Open Scope Z_scope.

(** ** Results of a Python computation *)

Inductive exn : Set :=
| Exception (msg : string)   (* raise Exception(msg) *)
| ZeroDivisionError          (* x % 0, 0 ** negative *)
| ValueError.                (* randint over an empty range *)

Inductive outcome (A : Type) : Type :=
| Ret (v : A)
| Raise (e : exn)
| NonInt.   (* the value is a float: x ** k with k < 0 and x <> 0 *)

Arguments Ret {A} v.
Arguments Raise {A} e.
Arguments NonInt {A}.

Definition bind {A B : Type} (m : outcome A) (k : A -> outcome B) : outcome B :=
  match m with
  | Ret v => k v
  | Raise e => Raise e
  | NonInt => NonInt
  end.

Declare Scope py_scope.
Delimit Scope py_scope with py.
Notation "x <- m ;; k" := (bind m (fun x => k))
  (at level 61, m at next level, right associativity) : py_scope.
Notation "' pat <- m ;; k" := (bind m (fun v => match v with pat => k end))
  (at level 61, pat pattern, m at next level, right associativity) : py_scope.
#[local] Open Scope py_scope.

(** [x % m] *)
Definition py_mod (x m : Z) : outcome Z :=
  if m =? 0 then Raise ZeroDivisionError else Ret (x mod m).

(** [x ** k] on two ints *)
Definition py_pow (x k : Z) : outcome Z :=
  if k <? 0 then (if x =? 0 then Raise ZeroDivisionError else NonInt)
  else Ret (x ^ k).

(** ** Modular arithmetic utilities *)

(** The recursion of [egcd], on an explicit bound for its depth. *)
Fixpoint egcd_rec (depth : nat) (a b : Z) : Z * Z * Z :=
  match depth with
  | O => (b, 0, 1)
  | S depth' =>
      if a =? 0 then (b, 0, 1)
      else
        let '(g, y, x) := egcd_rec depth' (b mod a) a in
        (g, x - (b / a) * y, y)
  end.

(** [egcd(a, b)]: each call replaces [a] by [b % a], of smaller absolute
    value, so [|a| + 1] levels are enough (see [egcd_eq]). *)
Definition egcd (a b : Z) : Z * Z * Z := egcd_rec (S (Z.abs_nat a)) a b.

Definition no_inverse : exn := Exception "modular inverse does not exist".

(** [modinv(a, m)] *)
Definition modinv (a m : Z) : outcome Z :=
  let '(g, x, y) := egcd a m in
  if negb (g =? 1) then Raise no_inverse
  else py_mod x m.

(** ** Random draws

    [random.randint(lo, hi)] returns an integer of [lo..hi], both ends
    included, and raises [ValueError] when the range is empty.  The source of
    randomness is a sequence of integers read in order; the state is the
    position of the next one.  Every value of the range can be drawn
    (see [randint_any]). *)

Definition entropy : Type := nat -> Z.

Definition Rand (A : Type) : Type := entropy -> nat -> outcome (A * nat).

Definition randint (lo hi : Z) : Rand Z :=
  fun src pos =>
    if hi <? lo then Raise ValueError
    else Ret (lo + src pos mod (hi - lo + 1), S pos).

(** ** ElGamal *)

Module ElGamal.

(** class PublicKey(NamedTuple): p, a, b *)
Record PublicKey : Set := mkPublicKey { pk_p : Z; pk_a : Z; pk_b : Z }.

(** class SecretKey(NamedTuple): d *)
Record SecretKey : Set := mkSecretKey { sk_d : Z }.

(** class Ciphertext(NamedTuple): r, t *)
Record Ciphertext : Set := mkCiphertext { c_r : Z; c_t : Z }.

Definition keygen (p : Z) : Rand (PublicKey * SecretKey) :=
  fun src pos =>
    '(a, pos1) <- randint 1 (p - 1) src pos ;;
    '(d, pos2) <- randint 2 (p - 2) src pos1 ;;
    ad <- py_pow a d ;;
    b <- py_mod ad p ;;
    Ret ((mkPublicKey p a b, mkSecretKey d), pos2).

Definition encrypt (message : Z) (pk : PublicKey) : Rand Ciphertext :=
  fun src pos =>
    '(k, pos1) <- randint 0 100 src pos ;;
    ak <- py_pow (pk_a pk) k ;;
    r <- py_mod ak (pk_p pk) ;;
    bk <- py_pow (pk_b pk) k ;;
    t <- py_mod (bk * message) (pk_p pk) ;;
    Ret (mkCiphertext r t, pos1).

Definition decrypt (c : Ciphertext) (pk : PublicKey) (sk : SecretKey)
  : outcome Z :=
  rd <- py_pow (c_r c) (sk_d sk) ;;
  inv <- py_pow rd (pk_p pk - 2) ;;
  py_mod (inv * c_t c) (pk_p pk).

Definition mult (a b : Ciphertext) : Ciphertext :=
  mkCiphertext (c_r a * c_r b) (c_t a * c_t b).

End ElGamal.

(** ** RSA *)

Module RSA.

(** class PublicKey(NamedTuple): e, n *)
Record PublicKey : Set := mkPublicKey { pk_e : Z; pk_n : Z }.

(** class SecretKey(NamedTuple): d, n *)
Record SecretKey : Set := mkSecretKey { sk_d : Z; sk_n : Z }.

(** class Ciphertext(NamedTuple): m *)
Record Ciphertext : Set := mkCiphertext { c_m : Z }.

(** [while gcd(phi, e) != 1: e += 1], run for at most [fuel] tests of the
    condition; [None] when the loop is still running after them. *)
Fixpoint search_e (fuel : nat) (phi e : Z) : option Z :=
  match fuel with
  | O => None
  | S fuel' =>
      if negb (Z.gcd phi e =? 1) then search_e fuel' phi (e + 1)
      else Some e
  end.

Definition keygen (fuel : nat) (p q : Z)
  : option (outcome (PublicKey * SecretKey)) :=
  let n := p * q in
  let phi := (p - 1) * (q - 1) in
  match search_e fuel phi 2 with
  | None => None
  | Some e =>
      Some (d <- modinv e phi ;;
            Ret (mkPublicKey e n, mkSecretKey d n))
  end.

Definition encrypt (message : Z) (pk : PublicKey) : outcome Ciphertext :=
  me <- py_pow message (pk_e pk) ;;
  c <- py_mod me (pk_n pk) ;;
  Ret (mkCiphertext c).

Definition decrypt (c : Ciphertext) (sk : SecretKey) : outcome Z :=
  md <- py_pow (c_m c) (sk_d sk) ;;
  py_mod md (sk_n sk).

Definition mult (a b : Ciphertext) : Ciphertext :=
  mkCiphertext (c_m a * c_m b).

End RSA.

(** ** Trial division

    The notebook does not test primality; this test serves the statements
    about concrete primes ([primeb_sound]). *)

Fixpoint no_divisor_from (count : nat) (n p : Z) : bool :=
  match count with
  | O => true
  | S count' => negb (p mod n =? 0) && no_divisor_from count' (n + 1) p
  end.

Definition primeb (p : Z) : bool :=
  (1 <? p) && no_divisor_from (Z.to_nat (p - 2)) 2 p.

(** ** Statements about whole runs *)

(** Whatever [keygen(p)] and [encrypt] draw, both return and decryption gives
    the plaintext back. *)
Definition round_trips (p plaintext : Z) : Prop :=
  forall (src : entropy) (pos : nat) (src' : entropy) (pos' : nat),
  exists pk sk c pos1 pos1',
    ElGamal.keygen p src pos = Ret ((pk, sk), pos1)
    /\ ElGamal.encrypt plaintext pk src' pos' = Ret (c, pos1')
    /\ ElGamal.decrypt c pk sk = Ret plaintext.

(** Whatever [keygen(p)] and the two calls of [encrypt] draw, all return and
    the product of the two ciphertexts decrypts to [(m1 * m2) mod p]. *)
Definition product_decrypts (p m1 m2 : Z) : Prop :=
  forall (src : entropy) (pos : nat)
         (src1 : entropy) (pos1 : nat) (src2 : entropy) (pos2 : nat),
  exists pk sk c1 c2 pos' pos1' pos2',
    ElGamal.keygen p src pos = Ret ((pk, sk), pos')
    /\ ElGamal.encrypt m1 pk src1 pos1 = Ret (c1, pos1')
    /\ ElGamal.encrypt m2 pk src2 pos2 = Ret (c2, pos2')
    /\ ElGamal.decrypt (ElGamal.mult c1 c2) pk sk = Ret ((m1 * m2) mod p).

(** [keygen(p, q)] returns [(pk, sk)]: the loop finishes, and whenever it has
    finished the result is this pair. *)
Definition keygen_yields (p q : Z) (pk : RSA.PublicKey) (sk : RSA.SecretKey)
  : Prop :=
  (exists fuel, RSA.keygen fuel p q = Some (Ret (pk, sk)))
  /\ (forall fuel r, RSA.keygen fuel p q = Some r -> r = Ret (pk, sk)).

(** [c] is a ciphertext that [encrypt(message, pk)] returns for some draw. *)
Definition encrypts (pk : ElGamal.PublicKey) (message : Z)
           (c : ElGamal.Ciphertext) : Prop :=
  exists (src : entropy) (pos pos' : nat),
    ElGamal.encrypt message pk src pos = Ret (c, pos').

(** What decryption relies on: modulo [p], the ciphertext is
    [(a^k, (a^d)^k * m)] for some exponent [k >= 0].  Products of ciphertexts
    keep this shape without being reduced. *)
Definition carries (p a d : Z) (c : ElGamal.Ciphertext) (m : Z) : Prop :=
  exists k, 0 <= k
            /\ ElGamal.c_r c mod p = a ^ k mod p
            /\ ElGamal.c_t c mod p = ((a ^ d) ^ k * m) mod p.

(** * Properties *)

(** ** The extended Euclidean algorithm *)

Lemma abs_nat_mod_lt (a b : Z) : a <> 0 -> (Z.abs_nat (b mod a) < Z.abs_nat a)%nat.
Proof.
  intros Ha.
  destruct (Z.lt_ge_cases 0 a) as [Hpos | Hneg].
  - pose proof (Z.mod_pos_bound b a Hpos). lia.
  - assert (Hlt : a < 0) by lia.
    pose proof (Z.mod_neg_bound b a Hlt). lia.
Qed.

(** Any depth above [|a|] gives the same result: the bound in [egcd] is never
    the reason the recursion stops. *)
Lemma egcd_rec_depth (n m : nat) :
  forall a b, (Z.abs_nat a < n)%nat -> (Z.abs_nat a < m)%nat ->
              egcd_rec n a b = egcd_rec m a b.
Proof.
  revert m. induction n as [| n IH]; intros m a b Hn Hm; [lia |].
  destruct m as [| m]; [lia |].
  simpl. destruct (Z.eqb_spec a 0) as [| Ha]; [reflexivity |].
  pose proof (abs_nat_mod_lt a b Ha).
  rewrite (IH m (b mod a) a) by lia. reflexivity.
Qed.

(** The defining equation of the source's [egcd], for all integers. *)
Lemma egcd_eq (a b : Z) :
  egcd a b =
    if a =? 0 then (b, 0, 1)
    else let '(g, y, x) := egcd (b mod a) a in (g, x - (b / a) * y, y).
Proof.
  unfold egcd at 1. simpl.
  destruct (Z.eqb_spec a 0) as [| Ha]; [reflexivity |].
  pose proof (abs_nat_mod_lt a b Ha).
  unfold egcd.
  rewrite (egcd_rec_depth (Z.abs_nat a) (S (Z.abs_nat (b mod a)))) by lia.
  reflexivity.
Qed.

(** Induction along the calls of [egcd]. *)
Lemma egcd_calls_ind (P : Z -> Z -> Z * Z * Z -> Prop) :
  (forall b, P 0 b (b, 0, 1)) ->
  (forall a b g y x,
      a <> 0 -> egcd (b mod a) a = (g, y, x) -> P (b mod a) a (g, y, x) ->
      P a b (g, x - (b / a) * y, y)) ->
  forall a b, P a b (egcd a b).
Proof.
  intros Hbase Hstep a.
  remember (Z.abs_nat a) as n eqn:Hn.
  revert a Hn. induction n as [n IH] using lt_wf_ind. intros a Hn b.
  rewrite egcd_eq. destruct (Z.eqb_spec a 0) as [-> | Ha]; [apply Hbase |].
  pose proof (abs_nat_mod_lt a b Ha) as Hlt.
  specialize (IH (Z.abs_nat (b mod a)) ltac:(lia) (b mod a) eq_refl a).
  destruct (egcd (b mod a) a) as [[g y] x] eqn:E.
  apply Hstep; assumption.
Qed.

(** Bezout's identity holds for the returned coefficients, whatever the signs
    of the arguments. *)
Lemma egcd_bezout (a b : Z) :
  let '(g, x, y) := egcd a b in a * x + b * y = g.
Proof.
  apply (egcd_calls_ind (fun a b r => let '(g, x, y) := r in a * x + b * y = g)).
  - intros b0. lia.
  - intros a0 b0 g y x Ha _ IH.
    pose proof (Z.div_mod b0 a0 Ha). nia.
Qed.

(** The first component is [gcd(a, b)] as soon as [a] is positive, or [a] is
    zero and [b] is not negative. *)
Lemma egcd_gcd (a b : Z) :
  0 < a \/ (a = 0 /\ 0 <= b) -> fst (fst (egcd a b)) = Z.gcd a b.
Proof.
  apply (egcd_calls_ind
           (fun a b r => 0 < a \/ (a = 0 /\ 0 <= b) -> fst (fst r) = Z.gcd a b)).
  - intros b0 [H | [_ H]]; [lia |]. cbn [fst]. rewrite Z.gcd_0_l. lia.
  - intros a0 b0 g y x Ha _ IH [Hpos | [H0 _]]; [| contradiction].
    cbn [fst] in *. pose proof (Z.mod_pos_bound b0 a0 Hpos).
    rewrite IH by lia.
    rewrite Z.gcd_mod by assumption. reflexivity.
Qed.

(** C6: for all non-negative integers [a] and [b], [egcd(a, b)] returns
    [(g, x, y)] with [g = gcd(a, b)] and [a*x + b*y = g]; for [a = 0] the
    triple is [(b, 0, 1)]; and [egcd(1071, 462) = (21, -3, 7)]. *)
Theorem egcd_correct (a b : Z) :
  0 <= a -> 0 <= b ->
  (exists g x y, egcd a b = (g, x, y) /\ g = Z.gcd a b /\ a * x + b * y = g)
  /\ egcd 0 b = (b, 0, 1)
  /\ egcd 1071 462 = (21, -3, 7).
Proof.
  intros Ha Hb. split; [| split; vm_compute; reflexivity].
  pose proof (egcd_bezout a b) as Hbez.
  pose proof (egcd_gcd a b ltac:(lia)) as Hg.
  destruct (egcd a b) as [[g x] y]. simpl in Hg.
  exists g, x, y. auto.
Qed.

Lemma egcd_correct_witness :
  (exists g x y, egcd 1071 462 = (g, x, y) /\ g = Z.gcd 1071 462
                 /\ 1071 * x + 462 * y = g)
  /\ egcd 0 462 = (462, 0, 1)
  /\ egcd 1071 462 = (21, -3, 7).
Proof. apply (egcd_correct 1071 462); lia. Defined.

(** ** The modular inverse *)

Lemma modinv_no_inverse (a m : Z) :
  fst (fst (egcd a m)) <> 1 -> modinv a m = Raise no_inverse.
Proof.
  unfold modinv. destruct (egcd a m) as [[g x] y]. cbn [fst].
  intros Hg. destruct (Z.eqb_spec g 1); [contradiction | reflexivity].
Qed.

Lemma modinv_inverse (a m : Z) :
  fst (fst (egcd a m)) = 1 -> m <> 0 ->
  exists x y, egcd a m = (1, x, y) /\ modinv a m = Ret (x mod m).
Proof.
  unfold modinv, py_mod. destruct (egcd a m) as [[g x] y]. cbn [fst].
  intros -> Hm. exists x, y. split; [reflexivity |].
  destruct (Z.eqb_spec m 0); [contradiction | reflexivity].
Qed.

(** A residue of [0..m-1] that inverts [a] modulo [m] is the only one. *)
Lemma inverse_mod_unique (a m x x' : Z) :
  0 <= x < m -> 0 <= x' < m ->
  (a * x) mod m = 1 -> (a * x') mod m = 1 -> x' = x.
Proof.
  intros Hx Hx' H H'.
  assert (Hm : m <> 0) by lia.
  assert (E : (x' * (a * x)) mod m = (x * (a * x')) mod m)
    by (f_equal; ring).
  rewrite <- (Z.mul_mod_idemp_r x'), <- (Z.mul_mod_idemp_r x) in E by assumption.
  rewrite H, H', !Z.mul_1_r, !Z.mod_small in E by lia.
  assumption.
Qed.

(** On non-negative arguments: for [a >= 0] and a modulus [m >= 1],
    [modinv(a, m)] raises if and only if [gcd(a, m) <> 1], and what it raises
    then is the exception "modular inverse does not exist"; when
    [gcd(a, m) = 1] it returns a value of [0..m-1] which, for [m > 1], is the
    unique one with [(a * x) mod m = 1]; and [modinv(17, 3120) = 2753]. *)
Theorem modinv_correct (a m : Z) :
  0 <= a -> 1 <= m ->
  ((exists e, modinv a m = Raise e) <-> Z.gcd a m <> 1)
  /\ (Z.gcd a m <> 1 -> modinv a m = Raise no_inverse)
  /\ (Z.gcd a m = 1 ->
      exists x, modinv a m = Ret x /\ 0 <= x < m
                /\ (1 < m ->
                    (a * x) mod m = 1
                    /\ forall x', 0 <= x' < m -> (a * x') mod m = 1 -> x' = x))
  /\ modinv 17 3120 = Ret 2753.
Proof.
  intros Ha Hm.
  pose proof (egcd_gcd a m ltac:(lia)) as Hg.
  assert (Hraise : Z.gcd a m <> 1 -> modinv a m = Raise no_inverse).
  { intros Hne. apply modinv_no_inverse. rewrite Hg. assumption. }
  assert (Hret : Z.gcd a m = 1 ->
                 exists x, modinv a m = Ret x /\ 0 <= x < m
                           /\ (1 < m ->
                               (a * x) mod m = 1
                               /\ forall x', 0 <= x' < m ->
                                             (a * x') mod m = 1 -> x' = x)).
  { intros Hco.
    destruct (modinv_inverse a m) as (x & y & E & R); [congruence | lia |].
    pose proof (egcd_bezout a m) as Hbez. rewrite E in Hbez.
    exists (x mod m). split; [assumption |].
    pose proof (Z.mod_pos_bound x m ltac:(lia)) as Hrange.
    split; [assumption |]. intros Hm1.
    assert (Hinv : (a * (x mod m)) mod m = 1).
    { rewrite Z.mul_mod_idemp_r by lia.
      replace (a * x) with (1 + (- y) * m) by lia.
      rewrite Z.mod_add by lia. apply Z.mod_small. lia. }
    split; [assumption |].
    intros x' Hx' H'. eapply inverse_mod_unique; eassumption. }
  split; [split |].
  - intros [e He] Hco. destruct (Hret Hco) as (x & R & _). congruence.
  - intros Hne. exists no_inverse. auto.
  - split; [assumption | split; [assumption | vm_compute; reflexivity]].
Qed.

Lemma modinv_correct_witness :
  ((exists e, modinv 17 3120 = Raise e) <-> Z.gcd 17 3120 <> 1)
  /\ (Z.gcd 17 3120 <> 1 -> modinv 17 3120 = Raise no_inverse)
  /\ (Z.gcd 17 3120 = 1 ->
      exists x, modinv 17 3120 = Ret x /\ 0 <= x < 3120
                /\ (1 < 3120 ->
                    (17 * x) mod 3120 = 1
                    /\ forall x', 0 <= x' < 3120 ->
                                  (17 * x') mod 3120 = 1 -> x' = x))
  /\ modinv 17 3120 = Ret 2753.
Proof. apply (modinv_correct 17 3120); lia. Defined.

(** Outside that domain the first component of [egcd] need not be the gcd:
    [modinv(-1, 5)] raises although [4] inverts [-1] modulo [5], and a zero
    modulus makes the final reduction divide by zero. *)
Lemma modinv_negative_argument :
  Z.gcd (-1) 5 = 1 /\ egcd (-1) 5 = (-1, 1, 0) /\ modinv (-1) 5 = Raise no_inverse.
Proof. vm_compute. repeat split. Qed.

Lemma modinv_zero_modulus :
  Z.gcd 1 0 = 1 /\ modinv 1 0 = Raise ZeroDivisionError.
Proof. vm_compute. split; reflexivity. Qed.

(** C7: [modinv(a, m)] should raise only when [gcd(a, m) <> 1] and return
    the inverse for all coprime [(a, m)] with [m > 1]; the code does not:
    [-3] and [7] are coprime and [2] inverts [-3] modulo [7], but
    [egcd(-3, 7)] is [(-1, -2, -1)], its first component is not [1], and
    [modinv(-3, 7)] raises "modular inverse does not exist". *)
Theorem modinv_coprime_negative_raises :
  Z.gcd (-3) 7 = 1
  /\ (-3 * 2) mod 7 = 1
  /\ egcd (-3) 7 = (-1, -2, -1)
  /\ modinv (-3) 7 = Raise no_inverse.
Proof. vm_compute. repeat split. Qed.

(** ** The utilities on arguments of any sign *)

Lemma egcd_abs_gcd (a b : Z) : Z.abs (fst (fst (egcd a b))) = Z.gcd a b.
Proof.
  apply (egcd_calls_ind (fun a b r => Z.abs (fst (fst r)) = Z.gcd a b)).
  - intros b0. cbn [fst]. symmetry. apply Z.gcd_0_l.
  - intros a0 b0 g y x Ha _ IH. cbn [fst] in *.
    rewrite IH, Z.gcd_mod by assumption. reflexivity.
Qed.

(** A negative first argument stays negative along the calls, down to the
    base case, which returns it as the first component. *)
Lemma egcd_negative (a b : Z) : a < 0 -> fst (fst (egcd a b)) < 0.
Proof.
  apply (egcd_calls_ind (fun a b r => a < 0 -> fst (fst r) < 0)).
  - intros b0 H. lia.
  - intros a0 b0 g y x Ha E IH Hneg. cbn [fst] in *.
    pose proof (Z.mod_neg_bound b0 a0 Hneg) as Hmod.
    destruct (Z.eq_dec (b0 mod a0) 0) as [H0 | Hne].
    + rewrite H0, egcd_eq in E. simpl in E. injection E as <- _ _. assumption.
    + apply IH. lia.
Qed.

(** X1: for integers [a], [b] of any sign, [egcd(a, b)] returns [(g, x, y)]
    with [a*x + b*y = g] and [|g| = gcd(a, b)]. *)
Theorem egcd_any_sign (a b : Z) :
  exists g x y,
    egcd a b = (g, x, y) /\ a * x + b * y = g /\ Z.abs g = Z.gcd a b.
Proof.
  pose proof (egcd_bezout a b) as Hbez.
  pose proof (egcd_abs_gcd a b) as Hg.
  destruct (egcd a b) as [[g x] y]. cbn [fst] in Hg.
  exists g, x, y. auto.
Qed.

(** X2: [modinv(a, m)] raises "modular inverse does not exist" for every
    negative [a], whatever [m], also when [a] has an inverse modulo [m]. *)
Theorem modinv_negative_raises (a m : Z) :
  a < 0 -> modinv a m = Raise no_inverse.
Proof.
  intros Ha. apply modinv_no_inverse.
  pose proof (egcd_negative a m Ha). lia.
Qed.

Lemma modinv_negative_raises_witness :
  modinv (-3) 7 = Raise no_inverse.
Proof. apply (modinv_negative_raises (-3) 7). lia. Defined.

(** X3: [modinv(a, m)] returns a value exactly when [a > 0], [m <> 0] and
    [gcd(a, m) = 1], or [a = 0] and [m = 1]; in every other case it raises:
    [ZeroDivisionError] when [a = 1] and [m = 0], and "modular inverse does
    not exist" otherwise. *)
Theorem modinv_returns_iff (a m : Z) :
  ((exists x, modinv a m = Ret x)
   <-> (0 < a /\ m <> 0 /\ Z.gcd a m = 1) \/ (a = 0 /\ m = 1))
  /\ (modinv a m = Raise ZeroDivisionError <-> a = 1 /\ m = 0)
  /\ (modinv a m = Raise no_inverse
      <-> ~ ((0 < a /\ m <> 0 /\ Z.gcd a m = 1) \/ (a = 0 /\ m = 1))
          /\ ~ (a = 1 /\ m = 0)).
Proof.
  set (returns := (0 < a /\ m <> 0 /\ Z.gcd a m = 1) \/ (a = 0 /\ m = 1)).
  assert (Hcases :
            (returns /\ exists x, modinv a m = Ret x)
            \/ ((a = 1 /\ m = 0) /\ ~ returns
                /\ modinv a m = Raise ZeroDivisionError)
            \/ (~ returns /\ ~ (a = 1 /\ m = 0)
                /\ modinv a m = Raise no_inverse)).
  { unfold returns.
    destruct (Z.lt_trichotomy a 0) as [Hneg | [-> | Hpos]].
    - right. right.
      pose proof (egcd_negative a m Hneg) as Hg.
      split; [lia |]. split; [lia |]. apply modinv_no_inverse. lia.
    - destruct (Z.eq_dec m 1) as [-> | Hm].
      + left. split; [right; auto | exists 0; reflexivity].
      + right. right. split; [lia |]. split; [lia |].
        apply modinv_no_inverse. rewrite egcd_eq. simpl. assumption.
    - pose proof (egcd_gcd a m ltac:(lia)) as Hg.
      destruct (Z.eq_dec (Z.gcd a m) 1) as [Hco | Hne].
      + destruct (Z.eq_dec m 0) as [-> | Hm].
        * rewrite Z.gcd_0_r in Hco. assert (a = 1) by lia. subst a.
          right. left. split; [auto |]. split; [lia | reflexivity].
        * left. split; [left; auto |].
          destruct (modinv_inverse a m) as (x & y & _ & R);
            [congruence | assumption | eauto].
      + right. right. split; [lia |]. split.
        * intros [-> ->]. apply Hne. reflexivity.
        * apply modinv_no_inverse. congruence. }
  destruct Hcases as [[Hr [x Hx]] | [[Hz [Hnr E]] | [Hnr [Hnz E]]]].
  - rewrite Hx. split; [| split].
    + split; [intros _; assumption | intros _; eauto].
    + split; [discriminate | intros [-> ->]; exfalso; unfold returns in Hr; lia].
    + split; [discriminate | intros [Hnr _]; contradiction].
  - rewrite E. split; [| split].
    + split; [intros [x Hx]; discriminate | intros Hr; contradiction].
    + split; [intros _; assumption | reflexivity].
    + split; [discriminate | intros [_ Hnz]; contradiction].
  - rewrite E. split; [| split].
    + split; [intros [x Hx]; discriminate | intros Hr; contradiction].
    + split; [discriminate | intros Hz; contradiction].
    + split; [intros _; auto | reflexivity].
Qed.

(** The inverse returned for a coprime argument and a modulus above 1. *)
Lemma modinv_coprime (a m : Z) :
  0 <= a -> 1 < m -> Z.gcd a m = 1 ->
  exists x, modinv a m = Ret x /\ 0 <= x < m /\ (a * x) mod m = 1.
Proof.
  intros Ha Hm Hco.
  pose proof (egcd_gcd a m ltac:(lia)) as Hg.
  destruct (modinv_inverse a m) as (x & y & E & R); [congruence | lia |].
  pose proof (egcd_bezout a m) as Hbez. rewrite E in Hbez.
  exists (x mod m). split; [assumption |].
  split; [apply Z.mod_pos_bound; lia |].
  rewrite Z.mul_mod_idemp_r by lia.
  replace (a * x) with (1 + (- y) * m) by lia.
  rewrite Z.mod_add by lia. apply Z.mod_small. lia.
Qed.

(** A residue with an inverse modulo [m] is coprime to [m]. *)
Lemma inverse_coprime (a m x : Z) :
  1 < m -> (a * x) mod m = 1 -> Z.gcd a m = 1.
Proof.
  intros Hm H.
  apply Z.gcd_unique; [lia | apply Z.divide_1_l | apply Z.divide_1_l |].
  intros q Ha Hq.
  pose proof (Z.div_mod (a * x) m ltac:(lia)) as E. rewrite H in E.
  replace 1 with (a * x - m * (a * x / m)) by lia.
  apply Z.divide_sub_r.
  - apply Z.divide_mul_l. assumption.
  - apply Z.divide_mul_l. assumption.
Qed.

(** X4: inverting twice gives the argument back, reduced: for [a >= 0]
    coprime to [m > 1], [modinv(modinv(a, m), m) = a mod m]. *)
Theorem modinv_involutive (a m : Z) :
  0 <= a -> 1 < m -> Z.gcd a m = 1 ->
  exists x, modinv a m = Ret x /\ modinv x m = Ret (a mod m).
Proof.
  intros Ha Hm Hco.
  destruct (modinv_coprime a m Ha Hm Hco) as (x & Rx & Hx & Hinv).
  exists x. split; [assumption |].
  assert (Hxa : (x * a) mod m = 1) by (rewrite Z.mul_comm; assumption).
  destruct (modinv_coprime x m ltac:(lia) Hm (inverse_coprime x m a Hm Hxa))
    as (y & Ry & Hy & Hinv').
  rewrite Ry. f_equal.
  apply (inverse_mod_unique x m); try assumption.
  - apply Z.mod_pos_bound. lia.
  - rewrite Z.mul_mod_idemp_r by lia. assumption.
Qed.

Lemma modinv_involutive_witness :
  exists x, modinv 17 3120 = Ret x /\ modinv x 3120 = Ret (17 mod 3120).
Proof. apply (modinv_involutive 17 3120); [lia | lia | reflexivity]. Defined.

(** X5: for [a >= 0] and [m >= 1], reducing the argument first changes
    nothing: [modinv(a mod m, m) = modinv(a, m)], the same value or the same
    exception. *)
Theorem modinv_reduced_argument (a m : Z) :
  0 <= a -> 1 <= m -> modinv (a mod m) m = modinv a m.
Proof.
  intros Ha Hm.
  pose proof (Z.mod_pos_bound a m ltac:(lia)) as Hr.
  assert (Hgcd : Z.gcd (a mod m) m = Z.gcd a m)
    by (rewrite Z.gcd_mod by lia; apply Z.gcd_comm).
  destruct (Z.eq_dec (Z.gcd a m) 1) as [Hco | Hne].
  - destruct (Z.eq_dec m 1) as [-> | Hm1].
    + destruct (modinv_inverse a 1) as (x & y & _ & R);
        [rewrite egcd_gcd by lia; assumption | lia |].
      destruct (modinv_inverse (a mod 1) 1) as (x' & y' & _ & R');
        [rewrite egcd_gcd by lia; congruence | lia |].
      rewrite R, R', !Z.mod_1_r. reflexivity.
    + destruct (modinv_coprime a m Ha ltac:(lia) Hco) as (x & R & Hx & Hinv).
      destruct (modinv_coprime (a mod m) m ltac:(lia) ltac:(lia) ltac:(congruence))
        as (x' & R' & Hx' & Hinv').
      rewrite R, R'. f_equal.
      apply (inverse_mod_unique a m); try assumption.
      rewrite Z.mul_mod_idemp_l in Hinv' by lia. assumption.
  - rewrite !modinv_no_inverse; [reflexivity | |];
      rewrite egcd_gcd by lia; congruence.
Qed.

Lemma modinv_reduced_argument_witness :
  modinv (3137 mod 3120) 3120 = modinv 3137 3120.
Proof. apply (modinv_reduced_argument 3137 3120); lia. Defined.

(** X6: the inverse of a product is the product of the inverses: for
    [a, b >= 0] coprime to [m > 1],
    [modinv(a * b, m) = (modinv(a, m) * modinv(b, m)) mod m]. *)
Theorem modinv_product (a b m : Z) :
  0 <= a -> 0 <= b -> 1 < m -> Z.gcd a m = 1 -> Z.gcd b m = 1 ->
  exists x y,
    modinv a m = Ret x /\ modinv b m = Ret y
    /\ modinv (a * b) m = Ret ((x * y) mod m).
Proof.
  intros Ha Hb Hm Hca Hcb.
  destruct (modinv_coprime a m Ha Hm Hca) as (x & Rx & Hx & Hix).
  destruct (modinv_coprime b m Hb Hm Hcb) as (y & Ry & Hy & Hiy).
  exists x, y. split; [assumption |]. split; [assumption |].
  assert (Hprod : (a * b * ((x * y) mod m)) mod m = 1).
  { rewrite Z.mul_mod_idemp_r by lia.
    replace (a * b * (x * y)) with ((a * x) * (b * y)) by ring.
    rewrite Z.mul_mod, Hix, Hiy by lia. apply Z.mod_small. lia. }
  destruct (modinv_coprime (a * b) m ltac:(nia) Hm
              (inverse_coprime _ _ _ Hm Hprod)) as (z & Rz & Hz & Hiz).
  rewrite Rz. f_equal.
  apply (inverse_mod_unique (a * b) m); try assumption.
  apply Z.mod_pos_bound. lia.
Qed.

Lemma modinv_product_witness :
  exists x y,
    modinv 7 3120 = Ret x /\ modinv 17 3120 = Ret y
    /\ modinv (7 * 17) 3120 = Ret ((x * y) mod 3120).
Proof.
  apply (modinv_product 7 17 3120); [lia | lia | lia | reflexivity | reflexivity].
Defined.

(** ** Primality by trial division, for concrete moduli *)

Lemma no_divisor_from_sound (count : nat) :
  forall n p, 0 < n -> no_divisor_from count n p = true ->
              forall k, n <= k < n + Z.of_nat count -> ~ (k | p).
Proof.
  induction count as [| count IH]; intros n p Hn H k Hk; [lia |].
  simpl in H. apply andb_true_iff in H as [Hhead Htail].
  destruct (Z.eq_dec k n) as [-> | Hne].
  - intros Hdiv. apply Z.mod0_divide in Hdiv.
    rewrite Hdiv in Hhead. discriminate.
  - apply (IH (n + 1) p); [lia | assumption | lia].
Qed.

Lemma primeb_sound (p : Z) : primeb p = true -> Z.prime p.
Proof.
  unfold primeb. intros H. apply andb_true_iff in H as [H1 H2].
  apply Z.ltb_lt in H1. split; [assumption |].
  intros n Hn. apply (no_divisor_from_sound _ 2 p ltac:(lia) H2). lia.
Qed.

(** ** Random draws *)

Lemma randint_range (lo hi : Z) (src : entropy) (pos : nat) :
  lo <= hi ->
  exists v, randint lo hi src pos = Ret (v, S pos) /\ lo <= v <= hi.
Proof.
  intros Hle. unfold randint.
  destruct (Z.ltb_spec hi lo); [lia |].
  eexists. split; [reflexivity |].
  pose proof (Z.mod_pos_bound (src pos) (hi - lo + 1) ltac:(lia)). lia.
Qed.

Lemma randint_empty (lo hi : Z) (src : entropy) (pos : nat) :
  hi < lo -> randint lo hi src pos = Raise ValueError.
Proof.
  intros Hlt. unfold randint. destruct (Z.ltb_spec hi lo); [reflexivity | lia].
Qed.

(** Every value of the range is returned for some source. *)
Lemma randint_any (lo hi v : Z) (pos : nat) :
  lo <= v <= hi -> exists src, randint lo hi src pos = Ret (v, S pos).
Proof.
  intros Hv. exists (fun _ => v - lo). unfold randint.
  destruct (Z.ltb_spec hi lo); [lia |].
  rewrite Z.mod_small by lia. do 2 f_equal. lia.
Qed.

(** ** Integer operations that stay inside the integers *)

Lemma py_pow_nonneg (x k : Z) : 0 <= k -> py_pow x k = Ret (x ^ k).
Proof. intros Hk. unfold py_pow. destruct (Z.ltb_spec k 0); [lia | reflexivity]. Qed.

Lemma py_mod_nonzero (x m : Z) : m <> 0 -> py_mod x m = Ret (x mod m).
Proof. intros Hm. unfold py_mod. destruct (Z.eqb_spec m 0); [contradiction | reflexivity]. Qed.

(** ** ElGamal *)

Module ElGamalFacts.
Import ElGamal.

(** The arithmetic behind decryption: with [r] congruent to [a^k] and [t]
    congruent to [(a^d)^k * m], multiplying [t] by [(r^d)^(p-2)] removes the
    mask, by Fermat's little theorem. *)
Lemma unmask (p r t a d k m : Z) :
  Z.prime p -> a mod p <> 0 -> 0 <= d -> 0 <= k ->
  r mod p = a ^ k mod p ->
  t mod p = ((a ^ d) ^ k * m) mod p ->
  ((r ^ d) ^ (p - 2) * t) mod p = m mod p.
Proof.
  intros Hp Ha Hd Hk Hr Ht.
  pose proof (Z.prime_ge_2 p Hp) as Hp2.
  assert (Hnz : p <> 0) by lia.
  rewrite <- Z.pow_mul_r by lia.
  rewrite Z.mul_mod by assumption.
  rewrite <- (Z.mod_pow_l r), Hr, Z.mod_pow_l, Ht.
  rewrite <- Z.mul_mod by assumption.
  replace ((a ^ k) ^ (d * (p - 2)) * ((a ^ d) ^ k * m))
    with ((a ^ (p - 1)) ^ (k * d) * m).
  - rewrite <- Z.mul_mod_idemp_l by assumption.
    rewrite <- Z.mod_pow_l, (Z.fermat_nz p a Hp Ha).
    rewrite Z.pow_1_l by nia.
    rewrite Z.mod_1_l by lia. f_equal. lia.
  - rewrite Z.mul_assoc. f_equal.
    rewrite <- !Z.pow_mul_r by nia.
    rewrite <- Z.pow_add_r by nia.
    f_equal. ring.
Qed.

(** Key generation: what is drawn and what is returned.  The generator is
    drawn from [1..p-1], both ends included. *)
Lemma keygen_returns (p : Z) (src : entropy) (pos : nat) :
  4 <= p ->
  exists a d,
    keygen p src pos
    = Ret ((mkPublicKey p a (a ^ d mod p), mkSecretKey d), S (S pos))
    /\ 1 <= a <= p - 1 /\ 2 <= d <= p - 2.
Proof.
  intros Hp. unfold keygen.
  destruct (randint_range 1 (p - 1) src pos ltac:(lia)) as (a & Ea & Ha).
  destruct (randint_range 2 (p - 2) src (S pos) ltac:(lia)) as (d & Ed & Hd).
  exists a, d. rewrite Ea. cbn [bind]. rewrite Ed. cbn [bind].
  rewrite py_pow_nonneg by lia. cbn [bind].
  rewrite py_mod_nonzero by lia. cbn [bind]. auto.
Qed.

(** Each generator of [1..p-1] and exponent of [2..p-2] is drawn by some
    source. *)
Lemma keygen_any (p a d : Z) :
  1 <= a <= p - 1 -> 2 <= d <= p - 2 ->
  exists src,
    keygen p src 0%nat
    = Ret ((mkPublicKey p a (a ^ d mod p), mkSecretKey d), 2%nat).
Proof.
  intros Ha Hd.
  exists (fun i => match i with O => a - 1 | S _ => d - 2 end).
  unfold keygen, randint.
  destruct (Z.ltb_spec (p - 1) 1); [lia |].
  destruct (Z.ltb_spec (p - 2) 2); [lia |].
  cbn [bind]. rewrite !Z.mod_small by lia.
  replace (1 + (a - 1)) with a by lia.
  replace (2 + (d - 2)) with d by lia.
  rewrite py_pow_nonneg by lia. cbn [bind].
  rewrite py_mod_nonzero by lia. reflexivity.
Qed.

Lemma encrypt_returns (message : Z) (pk : PublicKey) (src : entropy) (pos : nat) :
  pk_p pk <> 0 ->
  exists k,
    0 <= k <= 100
    /\ encrypt message pk src pos
       = Ret (mkCiphertext (pk_a pk ^ k mod pk_p pk)
                           ((pk_b pk ^ k * message) mod pk_p pk), S pos).
Proof.
  intros Hp. unfold encrypt.
  destruct (randint_range 0 100 src pos ltac:(lia)) as (k & Ek & Hk).
  exists k. split; [assumption |]. rewrite Ek. cbn [bind].
  rewrite !py_pow_nonneg by lia. cbn [bind].
  rewrite !py_mod_nonzero by assumption. reflexivity.
Qed.

Lemma decrypt_returns (c : Ciphertext) (pk : PublicKey) (sk : SecretKey) :
  2 <= pk_p pk -> 0 <= sk_d sk ->
  decrypt c pk sk
  = Ret (((c_r c ^ sk_d sk) ^ (pk_p pk - 2) * c_t c) mod pk_p pk).
Proof.
  intros Hp Hd. unfold decrypt.
  rewrite py_pow_nonneg by assumption. cbn [bind].
  rewrite py_pow_nonneg by lia. cbn [bind].
  apply py_mod_nonzero. lia.
Qed.

(** The masked message of a ciphertext, modulo [p], in terms of the
    generator. *)
Lemma masked_message (p a d k m : Z) :
  p <> 0 ->
  ((a ^ d mod p) ^ k * m) mod p = ((a ^ d) ^ k * m) mod p.
Proof.
  intros Hp.
  rewrite <- Z.mul_mod_idemp_l by assumption.
  rewrite Z.mod_pow_l.
  apply Z.mul_mod_idemp_l. assumption.
Qed.

(** C3: for every prime [p >= 5], every key pair that [keygen(p)] can
    produce, every plaintext of [0..p-1] and every exponent drawn by
    [encrypt], decrypting the encryption gives the plaintext back; with
    [p = 47], [42] round-trips to [42]. *)
Theorem elgamal_decrypt_encrypt (p plaintext : Z) :
  Z.prime p -> 5 <= p -> 0 <= plaintext < p ->
  round_trips p plaintext /\ round_trips 47 42.
Proof.
  assert (H : forall p plaintext,
             Z.prime p -> 5 <= p -> 0 <= plaintext < p ->
             round_trips p plaintext).
  { clear p plaintext. intros p plaintext Hp Hp5 Hm src pos src' pos'.
    destruct (keygen_returns p src pos ltac:(lia)) as (a & d & Ekey & Ha & Hd).
    set (pk := mkPublicKey p a (a ^ d mod p)) in *.
    destruct (encrypt_returns plaintext pk src' pos' ltac:(simpl; lia))
      as (k & Hk & Eenc).
    cbn [pk pk_p pk_a pk_b] in Eenc.
    eexists pk, (mkSecretKey d), _, _, _.
    split; [exact Ekey |]. split; [exact Eenc |].
    rewrite decrypt_returns by (simpl; lia).
    cbn [pk pk_p sk_d c_r c_t]. f_equal.
    rewrite (unmask p _ _ a d k plaintext); try assumption; try lia.
    - apply Z.mod_small. assumption.
    - rewrite Z.mod_small; lia.
    - apply Z.mod_mod. lia.
    - rewrite Z.mod_mod by lia. apply masked_message. lia. }
  intros Hp Hp5 Hm. split.
  - apply H; assumption.
  - apply H; [apply primeb_sound; vm_compute; reflexivity | lia | lia].
Qed.

Lemma elgamal_decrypt_encrypt_witness : round_trips 47 42 /\ round_trips 47 42.
Proof.
  apply (elgamal_decrypt_encrypt 47 42);
    [apply primeb_sound; vm_compute; reflexivity | lia | lia].
Defined.

(** C1: for every prime [p >= 5], every key pair that [keygen(p)] can
    produce, all plaintexts [m1], [m2] of [0..p-1] and all exponents drawn
    by the two encryptions, decrypting the product of the two ciphertexts
    gives [(m1 * m2) mod p]. *)
Theorem elgamal_decrypt_mult (p m1 m2 : Z) :
  Z.prime p -> 5 <= p -> 0 <= m1 < p -> 0 <= m2 < p ->
  product_decrypts p m1 m2.
Proof.
  intros Hp Hp5 Hm1 Hm2 src pos src1 pos1 src2 pos2.
  destruct (keygen_returns p src pos ltac:(lia)) as (a & d & Ekey & Ha & Hd).
  set (pk := mkPublicKey p a (a ^ d mod p)) in *.
  destruct (encrypt_returns m1 pk src1 pos1 ltac:(simpl; lia))
    as (k1 & Hk1 & Eenc1).
  destruct (encrypt_returns m2 pk src2 pos2 ltac:(simpl; lia))
    as (k2 & Hk2 & Eenc2).
  cbn [pk pk_p pk_a pk_b] in Eenc1, Eenc2.
  eexists pk, (mkSecretKey d), _, _, _, _, _.
  split; [exact Ekey |]. split; [exact Eenc1 |]. split; [exact Eenc2 |].
  rewrite decrypt_returns by (simpl; lia).
  cbn [pk pk_p sk_d c_r c_t mult]. f_equal.
  assert (Hnz : p <> 0) by lia.
  apply (unmask p _ _ a d (k1 + k2)); try assumption; try lia.
  - rewrite Z.mod_small; lia.
  - rewrite <- Z.mul_mod by assumption.
    rewrite Z.pow_add_r by lia. reflexivity.
  - rewrite <- Z.mul_mod by assumption.
    rewrite Z.mul_mod, !masked_message by assumption.
    rewrite <- Z.mul_mod by assumption.
    rewrite Z.pow_add_r by lia. f_equal. ring.
Qed.

Lemma elgamal_decrypt_mult_witness : product_decrypts 47 6 5.
Proof.
  apply (elgamal_decrypt_mult 47 6 5);
    [apply primeb_sound; vm_compute; reflexivity | lia | lia | lia].
Defined.

(** C8: [keygen(5)] can return the generator [4 = p - 1], which is not in
    [1..p-2]: the first draw is [randint(1, p - 1)], both ends included. *)
Theorem keygen_generator_out_of_range :
  let src := fun i : nat => match i with O => 3 | S _ => 0 end in
  keygen 5 src 0%nat
  = Ret ((mkPublicKey 5 4 1, mkSecretKey 2), 2%nat)
  /\ ~ (1 <= pk_a (mkPublicKey 5 4 1) <= 5 - 2).
Proof. split; [vm_compute; reflexivity | simpl; lia]. Qed.

(** *** Key generation on small moduli *)

(** X7: [keygen(p)] raises [ValueError] exactly when [p <= 3] (one of the two
    [randint] ranges is empty, also for the primes 2 and 3) and returns a key
    pair exactly when [p >= 4], whatever is drawn. *)
Theorem elgamal_keygen_value_error (p : Z) (src : entropy) (pos : nat) :
  (keygen p src pos = Raise ValueError <-> p <= 3)
  /\ ((exists r, keygen p src pos = Ret r) <-> 4 <= p).
Proof.
  destruct (Z.le_gt_cases 4 p) as [Hbig | Hsmall].
  - destruct (keygen_returns p src pos Hbig) as (a & d & E & _).
    rewrite E. split; split; try lia; try discriminate; eauto.
  - assert (E : keygen p src pos = Raise ValueError).
    { unfold keygen. destruct (Z.le_gt_cases 2 p) as [H2 | H2].
      - destruct (randint_range 1 (p - 1) src pos ltac:(lia)) as (a & Ea & _).
        rewrite Ea. cbn [bind]. rewrite randint_empty by lia. reflexivity.
      - rewrite randint_empty by lia. reflexivity. }
    rewrite E. split; split; try lia; try reflexivity.
    intros [r Hr]. discriminate.
Qed.

(** *** Products of any number of ciphertexts *)

Lemma encrypt_carries (p a d message : Z) (c : Ciphertext) :
  p <> 0 ->
  encrypts (mkPublicKey p a (a ^ d mod p)) message c ->
  carries p a d c message.
Proof.
  intros Hp (src & pos & pos' & E).
  destruct (encrypt_returns message (mkPublicKey p a (a ^ d mod p)) src pos Hp)
    as (k & Hk & E').
  rewrite E' in E. injection E as <- _. cbn [pk_p pk_a pk_b].
  exists k. split; [lia |]. cbn [c_r c_t]. split.
  - apply Z.mod_mod. assumption.
  - rewrite Z.mod_mod by assumption. apply masked_message. assumption.
Qed.

Lemma mult_carries (p a d : Z) (c1 c2 : Ciphertext) (m1 m2 : Z) :
  p <> 0 ->
  carries p a d c1 m1 -> carries p a d c2 m2 ->
  carries p a d (mult c1 c2) (m1 * m2).
Proof.
  intros Hp (k1 & Hk1 & Hr1 & Ht1) (k2 & Hk2 & Hr2 & Ht2).
  exists (k1 + k2). split; [lia |]. cbn [mult c_r c_t]. split.
  - rewrite Z.mul_mod, Hr1, Hr2 by assumption.
    rewrite <- Z.mul_mod by assumption.
    rewrite Z.pow_add_r by lia. reflexivity.
  - rewrite Z.mul_mod, Ht1, Ht2 by assumption.
    rewrite <- Z.mul_mod by assumption.
    rewrite Z.pow_add_r by lia. f_equal. ring.
Qed.

Lemma fold_mult_carries (p a d : Z) (ms : list Z) :
  p <> 0 ->
  forall (cs : list Ciphertext) (m0 : Z) (c0 : Ciphertext),
    carries p a d c0 m0 ->
    Forall2 (fun m c => carries p a d c m) ms cs ->
    carries p a d (fold_left mult cs c0) (fold_left Z.mul ms m0).
Proof.
  intros Hp. induction ms as [| m ms IH]; intros cs m0 c0 H0 Hall.
  - inversion Hall; subst. assumption.
  - inversion Hall as [| ? c ? cs' Hm Hrest]; subst. simpl.
    apply IH; [| assumption].
    apply mult_carries; assumption.
Qed.

Lemma decrypt_carries (p a b d m : Z) (c : Ciphertext) :
  Z.prime p -> a mod p <> 0 -> 0 <= d ->
  carries p a d c m ->
  decrypt c (mkPublicKey p a b) (mkSecretKey d) = Ret (m mod p).
Proof.
  intros Hp Ha Hd (k & Hk & Hr & Ht).
  pose proof (Z.prime_ge_2 p Hp).
  rewrite decrypt_returns by (simpl; lia). cbn [pk_p sk_d]. f_equal.
  apply (unmask p _ _ a d k); assumption.
Qed.

(** X8: for a prime [p >= 5] and any key pair [keygen(p)] returns, the
    product by [mult] of any number of ciphertexts, each returned by
    [encrypt] for an integer message (in range or not), decrypts to the
    product of the messages modulo [p]: the unreduced components never spoil
    decryption. *)
Theorem elgamal_product_of_many (p : Z) (src : entropy) (pos : nat) :
  Z.prime p -> 5 <= p ->
  exists pk sk pos',
    keygen p src pos = Ret ((pk, sk), pos')
    /\ forall (m0 : Z) (ms : list Z) (c0 : Ciphertext) (cs : list Ciphertext),
        encrypts pk m0 c0 ->
        Forall2 (encrypts pk) ms cs ->
        decrypt (fold_left mult cs c0) pk sk
        = Ret (fold_left Z.mul ms m0 mod p).
Proof.
  intros Hp Hp5.
  destruct (keygen_returns p src pos ltac:(lia)) as (a & d & Ekey & Ha & Hd).
  eexists _, _, _. split; [exact Ekey |].
  intros m0 ms c0 cs H0 Hall.
  assert (Hnz : p <> 0) by lia.
  apply decrypt_carries; [assumption | rewrite Z.mod_small; lia | lia |].
  apply fold_mult_carries; [assumption | |].
  - apply encrypt_carries; assumption.
  - clear H0. induction Hall as [| m c ms' cs' Hm _ IH]; constructor.
    + apply encrypt_carries; assumption.
    + assumption.
Qed.

Lemma elgamal_product_of_many_witness :
  exists pk sk pos',
    keygen 47 (fun _ => 9) 0%nat = Ret ((pk, sk), pos')
    /\ forall (m0 : Z) (ms : list Z) (c0 : Ciphertext) (cs : list Ciphertext),
        encrypts pk m0 c0 ->
        Forall2 (encrypts pk) ms cs ->
        decrypt (fold_left mult cs c0) pk sk
        = Ret (fold_left Z.mul ms m0 mod 47).
Proof.
  apply (elgamal_product_of_many 47 (fun _ => 9) 0%nat);
    [apply primeb_sound; vm_compute; reflexivity | lia].
Defined.

(** *** The two ways to invert the mask *)

Lemma fermat_inverse (p r d : Z) :
  Z.prime p -> 0 <= d -> r mod p <> 0 ->
  (r ^ d * (r ^ d) ^ (p - 2)) mod p = 1.
Proof.
  intros Hp Hd Hr. pose proof (Z.prime_ge_2 p Hp).
  replace (r ^ d * (r ^ d) ^ (p - 2)) with ((r ^ (p - 1)) ^ d).
  - rewrite <- Z.mod_pow_l, (Z.fermat_nz p r Hp Hr).
    rewrite Z.pow_1_l by assumption. apply Z.mod_1_l. lia.
  - rewrite <- !Z.pow_mul_r by lia.
    rewrite <- Z.pow_add_r by nia. f_equal. ring.
Qed.

(** X9: the source notes that [decrypt] could use [modinv] instead of the
    power [p - 2]; the two agree: for a prime [p], [d >= 0] and a ciphertext
    whose [r >= 0] is not a multiple of [p], [modinv(r ** d, p)] returns and
    [decrypt] is [(modinv(r ** d, p) * t) mod p]. *)
Theorem elgamal_decrypt_by_modinv (c : Ciphertext) (pk : PublicKey)
        (sk : SecretKey) :
  Z.prime (pk_p pk) -> 0 <= sk_d sk -> 0 <= c_r c ->
  c_r c mod pk_p pk <> 0 ->
  exists inv,
    modinv (c_r c ^ sk_d sk) (pk_p pk) = Ret inv
    /\ decrypt c pk sk = Ret ((inv * c_t c) mod pk_p pk).
Proof.
  intros Hp Hd Hr0 Hr. pose proof (Z.prime_ge_2 _ Hp) as Hp2.
  pose proof (fermat_inverse _ _ _ Hp Hd Hr) as Hinv.
  assert (Hpow : 0 <= c_r c ^ sk_d sk) by (apply Z.pow_nonneg; assumption).
  assert (Hp1 : 1 < pk_p pk) by lia.
  destruct (modinv_coprime (c_r c ^ sk_d sk) (pk_p pk) Hpow Hp1
              (inverse_coprime _ _ _ Hp1 Hinv)) as (inv & R & Hrange & Hi).
  exists inv. split; [assumption |].
  rewrite decrypt_returns by lia. f_equal.
  rewrite <- Z.mul_mod_idemp_l by lia. f_equal. f_equal.
  apply (inverse_mod_unique (c_r c ^ sk_d sk) (pk_p pk)); try assumption.
  - apply Z.mod_pos_bound. lia.
  - rewrite Z.mul_mod_idemp_r by lia. assumption.
Qed.

Lemma elgamal_decrypt_by_modinv_witness :
  exists inv,
    modinv (32 ^ 3) 47 = Ret inv
    /\ decrypt (mkCiphertext 32 28) (mkPublicKey 47 5 31) (mkSecretKey 3)
       = Ret ((inv * 28) mod 47).
Proof.
  apply (elgamal_decrypt_by_modinv (mkCiphertext 32 28) (mkPublicKey 47 5 31)
                                   (mkSecretKey 3));
    [apply primeb_sound; vm_compute; reflexivity
    | simpl; lia | simpl; lia | vm_compute; discriminate].
Defined.

(** *** Draws that hide nothing *)

(** X10: [encrypt] draws its exponent from [0..100], 0 included; on that draw
    the ciphertext is [(1, message mod p)]: the message is not masked. *)
Theorem elgamal_encrypt_exposes_message (message : Z) (pk : PublicKey)
        (pos : nat) :
  2 <= pk_p pk ->
  exists src,
    encrypt message pk src pos
    = Ret (mkCiphertext 1 (message mod pk_p pk), S pos).
Proof.
  intros Hp. destruct (randint_any 0 100 0 pos ltac:(lia)) as [src E].
  exists src. unfold encrypt. rewrite E. cbn [bind].
  rewrite !py_pow_nonneg by lia. cbn [bind].
  rewrite !py_mod_nonzero by lia. cbn [bind].
  rewrite !Z.pow_0_r, Z.mul_1_l, Z.mod_1_l by lia. reflexivity.
Qed.

Lemma elgamal_encrypt_exposes_message_witness :
  exists src,
    encrypt 42 (mkPublicKey 47 5 31) src 0%nat
    = Ret (mkCiphertext 1 (42 mod 47), 1%nat).
Proof.
  apply (elgamal_encrypt_exposes_message 42 (mkPublicKey 47 5 31) 0%nat).
  simpl; lia.
Defined.

(** X11: [keygen(p)] can draw the generator 1 (its range starts at 1), giving
    the public key [(p, 1, 1)]; under that key every call of [encrypt]
    returns [(1, message mod p)], whatever exponent it draws. *)
Theorem elgamal_generator_one (p : Z) :
  4 <= p ->
  (exists src d,
      keygen p src 0%nat = Ret ((mkPublicKey p 1 1, mkSecretKey d), 2%nat))
  /\ (forall message src pos,
         encrypt message (mkPublicKey p 1 1) src pos
         = Ret (mkCiphertext 1 (message mod p), S pos)).
Proof.
  intros Hp. split.
  - destruct (keygen_any p 1 2 ltac:(lia) ltac:(lia)) as [src E].
    exists src, 2. rewrite E.
    rewrite Z.pow_1_l, Z.mod_1_l by lia. reflexivity.
  - intros message src pos.
    destruct (encrypt_returns message (mkPublicKey p 1 1) src pos
                              ltac:(simpl; lia)) as (k & Hk & E).
    rewrite E. cbn [pk_p pk_a pk_b].
    rewrite Z.pow_1_l, Z.mod_1_l, Z.mul_1_l by lia. reflexivity.
Qed.

Lemma elgamal_generator_one_witness :
  (exists src d,
      keygen 47 src 0%nat = Ret ((mkPublicKey 47 1 1, mkSecretKey d), 2%nat))
  /\ (forall message src pos,
         encrypt message (mkPublicKey 47 1 1) src pos
         = Ret (mkCiphertext 1 (message mod 47), S pos)).
Proof. apply (elgamal_generator_one 47). lia. Defined.

End ElGamalFacts.

(** ** RSA *)

Module RSAFacts.
Import RSA.

(** *** The search for the public exponent *)

Lemma search_e_result (fuel : nat) :
  forall phi e e',
    search_e fuel phi e = Some e' ->
    e <= e' /\ Z.gcd phi e' = 1
    /\ forall x, e <= x < e' -> Z.gcd phi x <> 1.
Proof.
  induction fuel as [| fuel IH]; intros phi e e' H; [discriminate |].
  simpl in H. destruct (Z.eqb_spec (Z.gcd phi e) 1) as [Hg | Hg]; simpl in H.
  - injection H as <-. repeat split; [lia | assumption | lia].
  - destruct (IH _ _ _ H) as (Hle & Hco & Hmin).
    repeat split; [lia | assumption |].
    intros x Hx. destruct (Z.eq_dec x e) as [-> | Hne]; [assumption |].
    apply Hmin. lia.
Qed.

(** More tests of the condition do not change an exit already reached. *)
Lemma search_e_more_fuel (fuel : nat) :
  forall fuel' phi e e',
    search_e fuel phi e = Some e' -> (fuel <= fuel')%nat ->
    search_e fuel' phi e = Some e'.
Proof.
  induction fuel as [| fuel IH]; intros fuel' phi e e' H Hle; [discriminate |].
  destruct fuel' as [| fuel']; [lia |].
  simpl in *. destruct (negb (Z.gcd phi e =? 1)); [| assumption].
  apply IH; [assumption | lia].
Qed.

(** The loop exits once a value coprime to [phi] lies ahead. *)
Lemma search_e_exits (fuel : nat) :
  forall phi e c,
    Z.gcd phi c = 1 -> e <= c -> (Z.to_nat (c - e) < fuel)%nat ->
    exists e', search_e fuel phi e = Some e'.
Proof.
  induction fuel as [| fuel IH]; intros phi e c Hc Hle Hfuel; [lia |].
  simpl. destruct (Z.eqb_spec (Z.gcd phi e) 1) as [Hg | Hg]; simpl.
  - exists e. reflexivity.
  - assert (e <> c) by congruence.
    apply (IH phi (e + 1) c); [assumption | lia | lia].
Qed.

(** With [phi = 0] the condition [gcd(0, e) != 1] holds for every [e >= 2]:
    the loop never exits. *)
Lemma search_e_phi_zero (fuel : nat) :
  forall e, 2 <= e -> search_e fuel 0 e = None.
Proof.
  induction fuel as [| fuel IH]; intros e He; [reflexivity |].
  cbn [search_e]. rewrite Z.gcd_0_l.
  destruct (Z.eqb_spec (Z.abs e) 1); [lia |]. simpl. apply IH. lia.
Qed.

Lemma gcd_abs_succ (phi : Z) : Z.gcd phi (Z.abs phi + 1) = 1.
Proof.
  apply Z.gcd_unique; [lia | apply Z.divide_1_l | apply Z.divide_1_l |].
  intros q Hphi Hsucc.
  apply (Z.divide_add_cancel_r q (Z.abs phi) 1); [| assumption].
  apply Z.divide_abs_r. assumption.
Qed.

(** *** Key generation *)

(** For [phi <> 0] the loop exits within [|phi|] tests, at the least
    [e >= 2] coprime to [phi], and [modinv] then returns. *)
Lemma keygen_total (p q : Z) :
  (p - 1) * (q - 1) <> 0 ->
  exists e d,
    2 <= e
    /\ Z.gcd e ((p - 1) * (q - 1)) = 1
    /\ (forall x, 2 <= x < e -> Z.gcd x ((p - 1) * (q - 1)) <> 1)
    /\ modinv e ((p - 1) * (q - 1)) = Ret d
    /\ (0 < (p - 1) * (q - 1) -> 0 <= d < (p - 1) * (q - 1))
    /\ keygen_yields p q (mkPublicKey e (p * q)) (mkSecretKey d (p * q)).
Proof.
  intros Hphi. set (phi := (p - 1) * (q - 1)) in *.
  destruct (search_e_exits (Z.abs_nat phi) phi 2 (Z.abs phi + 1))
    as [e He]; [apply gcd_abs_succ | lia | lia |].
  destruct (search_e_result _ _ _ _ He) as (He2 & Hco & Hmin).
  pose proof (egcd_gcd e phi ltac:(lia)) as Hg.
  rewrite Z.gcd_comm in Hg.
  destruct (modinv_inverse e phi) as (x & y & _ & Hinv); [congruence | assumption |].
  exists e, (x mod phi).
  split; [assumption |]. split; [rewrite Z.gcd_comm; assumption |].
  split; [intros x0 Hx0; rewrite Z.gcd_comm; apply Hmin; assumption |].
  split; [assumption |]. split.
  - intros Hpos. apply Z.mod_pos_bound. assumption.
  - split.
    + exists (Z.abs_nat phi). unfold keygen. fold phi. rewrite He, Hinv.
      reflexivity.
    + intros fuel r Hr. unfold keygen in Hr. fold phi in Hr.
      destruct (search_e fuel phi 2) as [e0 |] eqn:E0; [| discriminate].
      destruct (Nat.le_ge_cases fuel (Z.abs_nat phi)) as [Hle | Hle].
      * rewrite (search_e_more_fuel _ _ _ _ _ E0 Hle) in He.
        injection He as ->. rewrite Hinv in Hr. injection Hr as <-.
        reflexivity.
      * rewrite (search_e_more_fuel _ _ _ _ _ He Hle) in E0.
        injection E0 as <-. rewrite Hinv in Hr. injection Hr as <-.
        reflexivity.
Qed.

(** With [phi = 0], that is [p = 1] or [q = 1], [keygen] does not return. *)
Lemma keygen_phi_zero (fuel : nat) (p q : Z) :
  (p - 1) * (q - 1) = 0 -> keygen fuel p q = None.
Proof.
  intros Hphi. unfold keygen. rewrite Hphi.
  rewrite search_e_phi_zero by lia. reflexivity.
Qed.

Lemma keygen_61_53 :
  keygen_yields 61 53 (mkPublicKey 7 3233) (mkSecretKey 1783 3233).
Proof.
  destruct (keygen_total 61 53 ltac:(lia)) as (e & d & _ & _ & _ & _ & _ & Hy).
  destruct Hy as [_ Hall]. split; [exists 6%nat; reflexivity |].
  intros fuel r Hr. rewrite (Hall fuel r Hr).
  symmetry. apply (Hall 6%nat). reflexivity.
Qed.

(** C5: [keygen(p, q)] is a function of [(p, q)]: with [n = p*q] and
    [phi = (p-1)*(q-1)], non-zero, it returns the public key [(e, n)] and
    the secret key [(d, n)] where [e] is the least integer [>= 2] with
    [gcd(e, phi) = 1] and [d = modinv(e, phi)]; [keygen(61, 53)] yields
    [(7, 3233)] and [(1783, 3233)]. *)
Theorem rsa_keygen_deterministic (p q : Z) :
  (p - 1) * (q - 1) <> 0 ->
  (exists e d,
      2 <= e
      /\ Z.gcd e ((p - 1) * (q - 1)) = 1
      /\ (forall x, 2 <= x < e -> Z.gcd x ((p - 1) * (q - 1)) <> 1)
      /\ modinv e ((p - 1) * (q - 1)) = Ret d
      /\ keygen_yields p q (mkPublicKey e (p * q)) (mkSecretKey d (p * q)))
  /\ keygen_yields 61 53 (mkPublicKey 7 3233) (mkSecretKey 1783 3233).
Proof.
  intros Hphi. split.
  - destruct (keygen_total p q Hphi) as (e & d & He & Hco & Hmin & Hd & _ & Hy).
    exists e, d. auto.
  - exact keygen_61_53.
Qed.

Lemma rsa_keygen_deterministic_witness :
  (exists e d,
      2 <= e
      /\ Z.gcd e ((61 - 1) * (53 - 1)) = 1
      /\ (forall x, 2 <= x < e -> Z.gcd x ((61 - 1) * (53 - 1)) <> 1)
      /\ modinv e ((61 - 1) * (53 - 1)) = Ret d
      /\ keygen_yields 61 53 (mkPublicKey e (61 * 53)) (mkSecretKey d (61 * 53)))
  /\ keygen_yields 61 53 (mkPublicKey 7 3233) (mkSecretKey 1783 3233).
Proof. apply (rsa_keygen_deterministic 61 53). lia. Defined.

(** C9: for all primes [p] and [q], [keygen(p, q)] returns a key pair: the
    loop exits, at an [e] with [gcd(e, phi) = 1], and nothing is raised, in
    particular not the "modular inverse does not exist" exception of
    [modinv]. *)
Theorem rsa_keygen_never_raises (p q : Z) :
  Z.prime p -> Z.prime q ->
  (exists pk sk,
      keygen_yields p q pk sk
      /\ Z.gcd (pk_e pk) ((p - 1) * (q - 1)) = 1
      /\ modinv (pk_e pk) ((p - 1) * (q - 1)) = Ret (sk_d sk))
  /\ (forall fuel e, keygen fuel p q <> Some (Raise e)).
Proof.
  intros Hp Hq.
  pose proof (Z.prime_ge_2 p Hp). pose proof (Z.prime_ge_2 q Hq).
  destruct (keygen_total p q ltac:(nia)) as (e & d & _ & Hco & _ & Hd & _ & Hy).
  split.
  - exists (mkPublicKey e (p * q)), (mkSecretKey d (p * q)). auto.
  - intros fuel e0 Hr. apply (proj2 Hy) in Hr. discriminate.
Qed.

Lemma rsa_keygen_never_raises_witness :
  (exists pk sk,
      keygen_yields 61 53 pk sk
      /\ Z.gcd (pk_e pk) ((61 - 1) * (53 - 1)) = 1
      /\ modinv (pk_e pk) ((61 - 1) * (53 - 1)) = Ret (sk_d sk))
  /\ (forall fuel e, keygen fuel 61 53 <> Some (Raise e)).
Proof.
  apply (rsa_keygen_never_raises 61 53);
    apply primeb_sound; vm_compute; reflexivity.
Defined.

(** *** Encryption and decryption *)

Lemma rsa_encrypt_returns (message : Z) (pk : PublicKey) :
  0 <= pk_e pk -> pk_n pk <> 0 ->
  encrypt message pk = Ret (mkCiphertext (message ^ pk_e pk mod pk_n pk)).
Proof.
  intros He Hn. unfold encrypt.
  rewrite py_pow_nonneg by assumption. cbn [bind].
  rewrite py_mod_nonzero by assumption. reflexivity.
Qed.

Lemma rsa_decrypt_returns (c : Ciphertext) (sk : SecretKey) :
  0 <= sk_d sk -> sk_n sk <> 0 ->
  decrypt c sk = Ret (c_m c ^ sk_d sk mod sk_n sk).
Proof.
  intros Hd Hn. unfold decrypt.
  rewrite py_pow_nonneg by assumption. cbn [bind].
  apply py_mod_nonzero. assumption.
Qed.

(** Every residue modulo 3233 is checked, with fast exponentiation. *)
Lemma residues_3233 :
  forallb (fun i => Zpow_mod (Zpow_mod (Z.of_nat i) 7 3233) 1783 3233
                    =? Z.of_nat i)
          (seq 0 3233) = true.
Proof. vm_compute. reflexivity. Qed.

(** C4: with [(pk, sk) = keygen(61, 53)], every plaintext [m] of
    [0..3232], [42] among them, satisfies
    [decrypt(encrypt(m, pk), sk) = m]. *)
Theorem rsa_decrypt_encrypt (m : Z) :
  0 <= m < 3233 ->
  exists pk sk c,
    keygen_yields 61 53 pk sk
    /\ encrypt m pk = Ret c
    /\ decrypt c sk = Ret m.
Proof.
  intros Hm.
  exists (mkPublicKey 7 3233), (mkSecretKey 1783 3233),
    (mkCiphertext (m ^ 7 mod 3233)).
  split; [exact keygen_61_53 |].
  split; [apply rsa_encrypt_returns; simpl; lia |].
  rewrite rsa_decrypt_returns by (simpl; lia).
  cbn [c_m sk_d sk_n]. f_equal.
  pose proof residues_3233 as Hall. rewrite forallb_forall in Hall.
  specialize (Hall (Z.to_nat m)).
  rewrite in_seq, Z2Nat.id in Hall by lia.
  specialize (Hall ltac:(lia)). apply Z.eqb_eq in Hall.
  rewrite !Zpow_mod_correct in Hall by lia. assumption.
Qed.

Lemma rsa_decrypt_encrypt_witness :
  exists pk sk c,
    keygen_yields 61 53 pk sk
    /\ encrypt 42 pk = Ret c
    /\ decrypt c sk = Ret 42.
Proof. apply (rsa_decrypt_encrypt 42). lia. Defined.

(** C2: for a secret key [(d, n)] with [n >= 1] (and [d >= 0], as every
    exponent returned by [modinv] for a positive modulus is) and
    ciphertexts [c1 = Ciphertext(m1)], [c2 = Ciphertext(m2)], of
    non-negative components or not, [decrypt(mult(c1, c2), sk)] is
    [(m1 * m2)^d mod n], which is
    [(decrypt(c1, sk) * decrypt(c2, sk)) mod n]. *)
Theorem rsa_decrypt_mult (c1 c2 : Ciphertext) (sk : SecretKey) :
  1 <= sk_n sk -> 0 <= sk_d sk ->
  exists v1 v2,
    decrypt c1 sk = Ret v1
    /\ decrypt c2 sk = Ret v2
    /\ decrypt (mult c1 c2) sk = Ret ((c_m c1 * c_m c2) ^ sk_d sk mod sk_n sk)
    /\ (c_m c1 * c_m c2) ^ sk_d sk mod sk_n sk = (v1 * v2) mod sk_n sk.
Proof.
  intros Hn Hd.
  exists (c_m c1 ^ sk_d sk mod sk_n sk), (c_m c2 ^ sk_d sk mod sk_n sk).
  rewrite !rsa_decrypt_returns by lia.
  repeat split.
  rewrite Z.pow_mul_l. apply Z.mul_mod. lia.
Qed.

Lemma rsa_decrypt_mult_witness :
  exists v1 v2,
    decrypt (mkCiphertext 2) (mkSecretKey 3 7) = Ret v1
    /\ decrypt (mkCiphertext 3) (mkSecretKey 3 7) = Ret v2
    /\ decrypt (mult (mkCiphertext 2) (mkCiphertext 3)) (mkSecretKey 3 7)
       = Ret ((2 * 3) ^ 3 mod 7)
    /\ (2 * 3) ^ 3 mod 7 = (v1 * v2) mod 7.
Proof.
  apply (rsa_decrypt_mult (mkCiphertext 2) (mkCiphertext 3) (mkSecretKey 3 7));
    simpl; lia.
Defined.

(** The notebook's run: 6 and 5 encrypt to 1898 and 533, whose product
    1011634 decrypts to 30. *)
Example rsa_mult_6_5 :
  encrypt 6 (mkPublicKey 7 3233) = Ret (mkCiphertext 1898)
  /\ encrypt 5 (mkPublicKey 7 3233) = Ret (mkCiphertext 533)
  /\ mult (mkCiphertext 1898) (mkCiphertext 533) = mkCiphertext 1011634
  /\ decrypt (mkCiphertext 1011634) (mkSecretKey 1783 3233) = Ret 30.
Proof.
  split; [vm_compute; reflexivity |].
  split; [vm_compute; reflexivity |].
  split; [reflexivity |].
  rewrite rsa_decrypt_returns by (simpl; lia). cbn [c_m sk_d sk_n].
  rewrite <- Zpow_mod_correct by lia. vm_compute. reflexivity.
Qed.

(** *** Key generation on any integers *)

(** X12: for any integers [p] and [q], [keygen(p, q)] finishes exactly when
    [(p-1)*(q-1) <> 0], and whenever it finishes it returns a key pair: it
    never raises, the alternative to a result is a loop that does not end
    ([p = 1] or [q = 1]). *)
Theorem rsa_keygen_returns_or_loops (p q : Z) :
  ((exists fuel r, keygen fuel p q = Some r) <-> (p - 1) * (q - 1) <> 0)
  /\ (forall fuel r, keygen fuel p q = Some r -> exists pk sk, r = Ret (pk, sk)).
Proof.
  destruct (Z.eq_dec ((p - 1) * (q - 1)) 0) as [Hz | Hnz].
  - split.
    + split; [| contradiction].
      intros (fuel & r & Hr). rewrite keygen_phi_zero in Hr by assumption.
      discriminate.
    + intros fuel r Hr. rewrite keygen_phi_zero in Hr by assumption.
      discriminate.
  - destruct (keygen_total p q Hnz) as (e & d & _ & _ & _ & _ & _ & Hex & Hall).
    split.
    + split; [intros _; assumption |].
      intros _. destruct Hex as [fuel Hf]. eauto.
    + intros fuel r Hr. rewrite (Hall fuel r Hr). eauto.
Qed.

Lemma gcd_pred (phi : Z) : Z.gcd (phi - 1) phi = 1.
Proof.
  apply Z.gcd_unique; [lia | apply Z.divide_1_l | apply Z.divide_1_l |].
  intros x H1 H2. replace 1 with (phi - (phi - 1)) by lia.
  apply Z.divide_sub_r; assumption.
Qed.

(** The exponents of a generated key pair, for [phi >= 2]. *)
Lemma keygen_inverse_pair (p q : Z) :
  2 <= (p - 1) * (q - 1) ->
  exists e d,
    keygen_yields p q (mkPublicKey e (p * q)) (mkSecretKey d (p * q))
    /\ 2 <= e
    /\ (3 <= (p - 1) * (q - 1) -> e < (p - 1) * (q - 1))
    /\ 0 < d < (p - 1) * (q - 1)
    /\ (e * d) mod ((p - 1) * (q - 1)) = 1.
Proof.
  intros Hphi. set (phi := (p - 1) * (q - 1)) in *.
  destruct (keygen_total p q ltac:(fold phi; lia))
    as (e & d & He & Hco & Hmin & Hd & _ & Hy).
  fold phi in Hco, Hmin, Hd.
  destruct (modinv_coprime e phi ltac:(lia) ltac:(lia) Hco)
    as (x & Rx & Hx & Hinv).
  rewrite Hd in Rx. injection Rx as <-.
  exists e, d. split; [assumption |]. split; [assumption |]. split.
  - intros H3. destruct (Z.lt_ge_cases e phi) as [Hlt | Hge]; [assumption |].
    exfalso. apply (Hmin (phi - 1)); [lia | apply gcd_pred].
  - split; [| assumption].
    assert (d <> 0); [| lia].
    intros ->. rewrite Z.mul_0_r, Z.mod_0_l in Hinv by lia. discriminate.
Qed.

(** X13: for [(p-1)*(q-1) >= 3], [keygen(p, q)] returns exponents with
    [1 < e < phi] (the bounds the source's comment asks for), [0 < d < phi]
    and [(e * d) mod phi = 1]. *)
Theorem rsa_keygen_exponents (p q : Z) :
  3 <= (p - 1) * (q - 1) ->
  exists e d,
    keygen_yields p q (mkPublicKey e (p * q)) (mkSecretKey d (p * q))
    /\ 1 < e < (p - 1) * (q - 1)
    /\ 0 < d < (p - 1) * (q - 1)
    /\ (e * d) mod ((p - 1) * (q - 1)) = 1.
Proof.
  intros Hphi.
  destruct (keygen_inverse_pair p q ltac:(lia)) as (e & d & Hy & He & Hlt & Hd & Hinv).
  exists e, d. specialize (Hlt Hphi).
  split; [assumption |]. split; [lia |]. split; assumption.
Qed.

Lemma rsa_keygen_exponents_witness :
  exists e d,
    keygen_yields 61 53 (mkPublicKey e (61 * 53)) (mkSecretKey d (61 * 53))
    /\ 1 < e < (61 - 1) * (53 - 1)
    /\ 0 < d < (61 - 1) * (53 - 1)
    /\ (e * d) mod ((61 - 1) * (53 - 1)) = 1.
Proof. apply (rsa_keygen_exponents 61 53). lia. Defined.

(** *** Round trip and product for every pair of distinct primes *)

Lemma fermat_cycle (p m j : Z) :
  Z.prime p -> 0 <= j -> m ^ (1 + j * (p - 1)) mod p = m mod p.
Proof.
  intros Hp Hj. pose proof (Z.prime_ge_2 p Hp).
  replace (1 + j * (p - 1)) with (1 + (p - 1) * j) by ring.
  rewrite Z.pow_add_r, Z.pow_1_r, Z.pow_mul_r by nia.
  destruct (Z.eq_dec (m mod p) 0) as [H0 | Hne].
  - rewrite <- Z.mul_mod_idemp_l, H0 by lia. reflexivity.
  - rewrite <- Z.mul_mod_idemp_r by lia.
    rewrite <- Z.mod_pow_l, (Z.fermat_nz p m Hp Hne).
    rewrite Z.pow_1_l, Z.mod_1_l, Z.mul_1_r by lia. reflexivity.
Qed.

Lemma cong_divide (x y n : Z) : n <> 0 -> x mod n = y mod n -> (n | x - y).
Proof.
  intros Hn H. exists (x / n - y / n).
  pose proof (Z.div_mod x n Hn). pose proof (Z.div_mod y n Hn). nia.
Qed.

Lemma divide_cong (x y n : Z) : n <> 0 -> (n | x - y) -> x mod n = y mod n.
Proof.
  intros Hn [z Hz]. replace x with (y + z * n) by lia.
  apply Z.mod_add. assumption.
Qed.

(** Raising to a power [1 + k * phi] is the identity modulo [p * q]. *)
Lemma rsa_cycle (p q m k : Z) :
  Z.prime p -> Z.prime q -> p <> q -> 0 <= k ->
  m ^ (1 + k * ((p - 1) * (q - 1))) mod (p * q) = m mod (p * q).
Proof.
  intros Hp Hq Hpq Hk.
  pose proof (Z.prime_ge_2 p Hp). pose proof (Z.prime_ge_2 q Hq).
  set (X := m ^ (1 + k * ((p - 1) * (q - 1)))).
  assert (HXp : (p | X - m)).
  { apply cong_divide; [lia |]. unfold X.
    replace (1 + k * ((p - 1) * (q - 1))) with (1 + (k * (q - 1)) * (p - 1)) by ring.
    apply fermat_cycle; [assumption | nia]. }
  assert (HXq : (q | X - m)).
  { apply cong_divide; [lia |]. unfold X.
    replace (1 + k * ((p - 1) * (q - 1))) with (1 + (k * (p - 1)) * (q - 1)) by ring.
    apply fermat_cycle; [assumption | nia]. }
  apply divide_cong; [nia |].
  destruct HXq as [t Ht].
  assert (Hpt : (p | t)).
  { apply (Z.gauss p q t).
    - rewrite Z.mul_comm, <- Ht. assumption.
    - apply Z.coprime_prime_l; [assumption |].
      intros Hdiv. apply Hpq. apply Z.divide_prime_prime; assumption. }
  destruct Hpt as [s Hs]. exists s. rewrite Ht, Hs. ring.
Qed.

(** The keys of two distinct primes: [e * d = 1 + k * phi]. *)
Lemma rsa_keys (p q : Z) :
  Z.prime p -> Z.prime q -> p <> q ->
  exists e d k,
    keygen_yields p q (mkPublicKey e (p * q)) (mkSecretKey d (p * q))
    /\ 2 <= e /\ 0 < d /\ 0 <= k
    /\ e * d = 1 + k * ((p - 1) * (q - 1)).
Proof.
  intros Hp Hq Hpq.
  pose proof (Z.prime_ge_2 p Hp). pose proof (Z.prime_ge_2 q Hq).
  assert (Hphi : 2 <= (p - 1) * (q - 1)) by nia.
  destruct (keygen_inverse_pair p q Hphi) as (e & d & Hy & He & _ & Hd & Hinv).
  exists e, d, (e * d / ((p - 1) * (q - 1))).
  split; [assumption |]. split; [assumption |]. split; [lia |]. split.
  - apply Z.div_pos; nia.
  - pose proof (Z.div_mod (e * d) ((p - 1) * (q - 1)) ltac:(lia)) as E.
    rewrite Hinv in E. lia.
Qed.

(** X14: for any two distinct primes [p], [q] and any integer message, with
    the keys that [keygen(p, q)] returns, [decrypt(encrypt(message, pk), sk)]
    is [message mod (p*q)]: the message itself when it is in [0..p*q-1]. *)
Theorem rsa_round_trip (p q message : Z) :
  Z.prime p -> Z.prime q -> p <> q ->
  exists pk sk c,
    keygen_yields p q pk sk
    /\ encrypt message pk = Ret c
    /\ decrypt c sk = Ret (message mod (p * q)).
Proof.
  intros Hp Hq Hpq.
  pose proof (Z.prime_ge_2 p Hp). pose proof (Z.prime_ge_2 q Hq).
  destruct (rsa_keys p q Hp Hq Hpq) as (e & d & k & Hy & He & Hd & Hk & Hed).
  assert (Hn : p * q <> 0) by nia.
  eexists _, _, _. split; [exact Hy |].
  split; [apply rsa_encrypt_returns; simpl; lia |].
  rewrite rsa_decrypt_returns by (simpl; lia).
  cbn [c_m sk_d sk_n pk_e pk_n]. f_equal.
  rewrite Z.mod_pow_l, <- Z.pow_mul_r, Hed by lia.
  apply rsa_cycle; assumption.
Qed.

Lemma rsa_round_trip_witness :
  exists pk sk c,
    keygen_yields 61 53 pk sk
    /\ encrypt 4000 pk = Ret c
    /\ decrypt c sk = Ret (4000 mod (61 * 53)).
Proof.
  apply (rsa_round_trip 61 53 4000);
    [apply primeb_sound; vm_compute; reflexivity
    | apply primeb_sound; vm_compute; reflexivity
    | discriminate].
Defined.

(** X15: for any two distinct primes and any integer messages [m1], [m2],
    with the keys that [keygen(p, q)] returns, the product by [mult] of the
    two encryptions decrypts to [(m1 * m2) mod (p*q)]. *)
Theorem rsa_product_round_trip (p q m1 m2 : Z) :
  Z.prime p -> Z.prime q -> p <> q ->
  exists pk sk c1 c2,
    keygen_yields p q pk sk
    /\ encrypt m1 pk = Ret c1
    /\ encrypt m2 pk = Ret c2
    /\ decrypt (mult c1 c2) sk = Ret ((m1 * m2) mod (p * q)).
Proof.
  intros Hp Hq Hpq.
  pose proof (Z.prime_ge_2 p Hp). pose proof (Z.prime_ge_2 q Hq).
  destruct (rsa_keys p q Hp Hq Hpq) as (e & d & k & Hy & He & Hd & Hk & Hed).
  assert (Hn : p * q <> 0) by nia.
  eexists _, _, _, _. split; [exact Hy |].
  split; [apply rsa_encrypt_returns; simpl; lia |].
  split; [apply rsa_encrypt_returns; simpl; lia |].
  rewrite rsa_decrypt_returns by (simpl; lia).
  cbn [mult c_m sk_d sk_n pk_e pk_n]. f_equal.
  rewrite <- Z.mod_pow_l, <- Z.mul_mod, Z.mod_pow_l by assumption.
  rewrite <- Z.pow_mul_l, <- Z.pow_mul_r, Hed by lia.
  apply rsa_cycle; assumption.
Qed.

Lemma rsa_product_round_trip_witness :
  exists pk sk c1 c2,
    keygen_yields 61 53 pk sk
    /\ encrypt 6 pk = Ret c1
    /\ encrypt 5 pk = Ret c2
    /\ decrypt (mult c1 c2) sk = Ret ((6 * 5) mod (61 * 53)).
Proof.
  apply (rsa_product_round_trip 61 53 6 5);
    [apply primeb_sound; vm_compute; reflexivity
    | apply primeb_sound; vm_compute; reflexivity
    | discriminate].
Defined.

(** X16: the two primes have to differ: for a prime [p >= 3], with the keys
    of [keygen(p, p)], the message [p] encrypts to 0 and decrypts to 0. *)
Theorem rsa_equal_primes_lose_message (p : Z) :
  Z.prime p -> 3 <= p ->
  exists pk sk,
    keygen_yields p p pk sk
    /\ encrypt p pk = Ret (mkCiphertext 0)
    /\ decrypt (mkCiphertext 0) sk = Ret 0.
Proof.
  intros Hp Hp3.
  destruct (keygen_inverse_pair p p ltac:(nia)) as (e & d & Hy & He & _ & Hd & _).
  eexists _, _. split; [exact Hy |].
  assert (Hn : p * p <> 0) by nia.
  split.
  - rewrite rsa_encrypt_returns by (simpl; lia).
    cbn [pk_e pk_n]. do 2 f_equal.
    replace e with (2 + (e - 2)) by lia.
    rewrite Z.pow_add_r by lia.
    replace (p ^ 2) with (p * p) by ring.
    rewrite Z.mul_comm. apply Z.mod_mul. assumption.
  - rewrite rsa_decrypt_returns by (simpl; lia).
    cbn [c_m sk_d sk_n]. f_equal.
    rewrite Z.pow_0_l by lia. apply Z.mod_0_l. assumption.
Qed.

Lemma rsa_equal_primes_lose_message_witness :
  exists pk sk,
    keygen_yields 3 3 pk sk
    /\ encrypt 3 pk = Ret (mkCiphertext 0)
    /\ decrypt (mkCiphertext 0) sk = Ret 0.
Proof.
  apply (rsa_equal_primes_lose_message 3);
    [apply primeb_sound; vm_compute; reflexivity | lia].
Defined.

End RSAFacts.

(** ** Both decryptions reduce their result *)

(** C10: both [decrypt] operations return a value reduced modulo the modulus,
    also on the unreduced ciphertexts that [mult] produces: for ElGamal, with
    a modulus [p >= 2] (prime or not) and [d >= 0], the result is in
    [0..p-1]; for RSA, with [n >= 1] and [d >= 0], it is in [0..n-1].  The
    sign of the ciphertext's components plays no role. *)
Theorem decrypt_reduced :
  (forall (c : ElGamal.Ciphertext) (pk : ElGamal.PublicKey)
          (sk : ElGamal.SecretKey),
      2 <= ElGamal.pk_p pk -> 0 <= ElGamal.sk_d sk ->
      exists v, ElGamal.decrypt c pk sk = Ret v /\ 0 <= v < ElGamal.pk_p pk)
  /\ (forall (c : RSA.Ciphertext) (sk : RSA.SecretKey),
         1 <= RSA.sk_n sk -> 0 <= RSA.sk_d sk ->
         exists v, RSA.decrypt c sk = Ret v /\ 0 <= v < RSA.sk_n sk).
Proof.
  split.
  - intros c pk sk Hp Hd. eexists. split.
    + apply ElGamalFacts.decrypt_returns; assumption.
    + apply Z.mod_pos_bound. lia.
  - intros c sk Hn Hd. eexists. split.
    + apply RSAFacts.rsa_decrypt_returns; [assumption | lia].
    + apply Z.mod_pos_bound. lia.
Qed.

Lemma decrypt_reduced_witness :
  (exists v,
      ElGamal.decrypt
        (ElGamal.mult (ElGamal.mkCiphertext 42 2) (ElGamal.mkCiphertext 9 26))
        (ElGamal.mkPublicKey 47 5 12) (ElGamal.mkSecretKey 7) = Ret v
      /\ 0 <= v < 47)
  /\ (exists v,
         RSA.decrypt (RSA.mult (RSA.mkCiphertext 1898) (RSA.mkCiphertext 533))
                     (RSA.mkSecretKey 1783 3233) = Ret v
         /\ 0 <= v < 3233).
Proof.
  split.
  - apply (proj1 decrypt_reduced
             (ElGamal.mult (ElGamal.mkCiphertext 42 2) (ElGamal.mkCiphertext 9 26))
             (ElGamal.mkPublicKey 47 5 12) (ElGamal.mkSecretKey 7)); simpl; lia.
  - apply (proj2 decrypt_reduced
             (RSA.mult (RSA.mkCiphertext 1898) (RSA.mkCiphertext 533))
             (RSA.mkSecretKey 1783 3233)); simpl; lia.
Defined.
